(** * Real-time data distribution service (app.py): subscription and broadcast core

    A shallow embedding of [ConnectionManager], the tick loop
    [generate_data], the query route [get_data] and the websocket route
    [websocket_endpoint], followed by the properties of the specification
    that concern them.

    Conventions of the embedding.
    - A [WebSocket] object is compared and hashed by identity: it is a
      number.
    - A Python [dict] that is only looked up, assigned and deleted is a
      [gmap]; the list of live connections is a [list], since
      [broadcast_data] iterates over it by position while [disconnect]
      removes from it.
    - Readings (Python floats) and clock values are opaque to the core: the
      types [Value] and [Time] are parameters.
    - What the transport, the clock and the hash order of [set] do is not
      decided by app.py. They are inputs: [send_json_error] says whether
      [send_json] raises for a connection, [time_time] gives the successive
      readings of [time.time()], and [list_of_set] is [list(set(xs))].
    - A coroutine is followed from its call to its return or to the
      exception that leaves it; the interleaving of coroutines at [await] is
      not part of the model. *)

From Stdlib Require Import QArith_base.
From stdpp Require Import base option list gmap sets strings.

Open Scope string_scope.
Set Warnings "-register-all".

(** ** Python values and control *)

(** The exception classes that occur in the runs followed here. All of them
    derive from [Exception]. [json.JSONDecodeError] does not appear: the
    outcome of [json.loads] is an [option]. *)
Inductive exn :=
| WebSocketDisconnect
| RuntimeError
| TypeError
| AttributeError.

#[export] Instance exn_eq_dec : EqDecision exn.
Proof. solve_decision. Defined.

(** The outcome of a call on a state [S]: it returns, or an exception leaves
    it; the state reached is kept in both cases. *)
Inductive result (S : Type) :=
| Ok (s : S)
| Raise (e : exn) (s : S).
Arguments Ok {S} s.
Arguments Raise {S} e s.

Definition state_of {S : Type} (r : result S) : S :=
  match r with Ok s => s | Raise _ s => s end.

(** [l.remove(x)] for [x in l]: the first occurrence goes. *)
Fixpoint list_remove_first {A : Type} `{EqDecision A} (x : A) (l : list A) : list A :=
  match l with
  | [] => []
  | y :: l' => if decide (x = y) then l' else y :: list_remove_first x l'
  end.

(** [list(set(xs))]: the elements of [xs], each once, in the order of the
    hash table, which Python leaves unspecified. *)
Class SetOrder := {
  list_of_set : list string → list string;
  list_of_set_NoDup xs : NoDup (list_of_set xs);
  elem_of_list_of_set x xs : x ∈ list_of_set xs ↔ x ∈ xs
}.

(** One admissible order: first occurrence first. *)
#[export] Instance first_seen_order : SetOrder := {|
  list_of_set := remove_dups;
  list_of_set_NoDup := NoDup_remove_dups;
  elem_of_list_of_set := λ x xs, elem_of_remove_dups xs x
|}.

(** ** ConnectionManager *)

Abbreviation WebSocket := nat (only parsing).

Record ConnectionManager := {
  active_connections : list WebSocket;
  subscriptions : gmap WebSocket (list string)
}.

(** [ConnectionManager.__init__] *)
Definition new_manager : ConnectionManager :=
  {| active_connections := []; subscriptions := ∅ |}.

(** [ConnectionManager.connect]. [accept] is the outcome of
    [await websocket.accept()]: [None] when it returns. *)
Definition connect (websocket : WebSocket) (accept : option exn)
    (self : ConnectionManager) : result ConnectionManager :=
  match accept with
  | Some e => Raise e self
  | None =>
      Ok {| active_connections := active_connections self ++ [websocket];
            subscriptions := <[websocket := []]> (subscriptions self) |}
  end.

(** [ConnectionManager.disconnect] *)
Definition disconnect (websocket : WebSocket) (self : ConnectionManager)
    : ConnectionManager :=
  {| active_connections :=
       if decide (websocket ∈ active_connections self)
       then list_remove_first websocket (active_connections self)
       else active_connections self;
     subscriptions :=
       if decide (is_Some (subscriptions self !! websocket))
       then delete websocket (subscriptions self)
       else subscriptions self |}.

(** [ConnectionManager.subscribe] *)
Definition subscribe `{SetOrder} (websocket : WebSocket) (topics : list string)
    (self : ConnectionManager) : ConnectionManager :=
  match subscriptions self !! websocket with
  | Some current =>
      {| active_connections := active_connections self;
         subscriptions :=
           <[websocket := list_of_set (current ++ topics)]> (subscriptions self) |}
  | None => self
  end.

(** The body of [for topic in topics] in [unsubscribe]. *)
Definition discard_topic (current : list string) (topic : string) : list string :=
  if decide (topic ∈ current) then list_remove_first topic current else current.

(** [ConnectionManager.unsubscribe]; [topics = None] is Python's [None]. *)
Definition unsubscribe (websocket : WebSocket) (topics : option (list string))
    (self : ConnectionManager) : ConnectionManager :=
  match subscriptions self !! websocket with
  | Some current =>
      {| active_connections := active_connections self;
         subscriptions :=
           <[websocket :=
               match topics with
               | None => []
               | Some topics => foldl discard_topic current topics
               end]> (subscriptions self) |}
  | None => self
  end.

(** [self.subscriptions.get(websocket, [])], as [broadcast_data] reads it. *)
Definition topics_of (websocket : WebSocket) (self : ConnectionManager) : list string :=
  default [] (subscriptions self !! websocket).

(** The subscribed set of a connection. *)
Definition subscribed (websocket : WebSocket) (self : ConnectionManager) : gset string :=
  list_to_set (topics_of websocket self).

(** *** Sequences of registry operations *)

Inductive registry_op :=
| Connect (websocket : WebSocket) (accept : option exn)
| Disconnect (websocket : WebSocket)
| Subscribe (websocket : WebSocket) (topics : list string)
| Unsubscribe (websocket : WebSocket) (topics : option (list string)).

Definition apply_op `{SetOrder} (self : ConnectionManager) (op : registry_op)
    : ConnectionManager :=
  match op with
  | Connect websocket accept => state_of (connect websocket accept self)
  | Disconnect websocket => disconnect websocket self
  | Subscribe websocket topics => subscribe websocket topics self
  | Unsubscribe websocket topics => unsubscribe websocket topics self
  end.

Definition run_ops `{SetOrder} (ops : list registry_op) (self : ConnectionManager)
    : ConnectionManager :=
  foldl apply_op self ops.

(** No operation of the sequence connects a connection that is live at that
    point, as happens when every call of [websocket_endpoint] gets a
    [WebSocket] of its own. *)
Fixpoint connects_fresh `{SetOrder} (ops : list registry_op) (self : ConnectionManager)
    : Prop :=
  match ops with
  | [] => True
  | op :: ops' =>
      match op with
      | Connect websocket None => websocket ∉ active_connections self
      | _ => True
      end ∧ connects_fresh ops' (apply_op self op)
  end.

#[export] Instance connects_fresh_dec `{SetOrder} ops self :
  Decision (connects_fresh ops self).
Proof.
  revert self.
  induction ops as [|[? [?|]| | |] ops IH]; intros self; cbn; apply _.
Defined.

(** ** The world around the manager *)

(** A decoded JSON text, as [json.loads] returns it. A number keeps its
    literal: no run followed here computes with one. An object keeps its
    members as written; [dict_get] and [dict_keys] read them as the [dict]
    that [json.loads] builds. *)
Inductive JSON :=
| JNull
| JBool (b : bool)
| JNumber (literal : string)
| JString (s : string)
| JArray (items : list JSON)
| JObject (members : list (string * JSON)).

(** [d.get(key)] on the [dict] of an object: the last member of that name. *)
Fixpoint dict_get (key : string) (members : list (string * JSON)) : option JSON :=
  match members with
  | [] => None
  | (k, v) :: rest =>
      match dict_get key rest with
      | Some v' => Some v'
      | None => if decide (k = key) then Some v else None
      end
  end.

(** The keys of that [dict], in insertion order. *)
Definition dict_keys (members : list (string * JSON)) : list string :=
  remove_dups (members.*1).

(** The one-character strings of a [str], in order. *)
Fixpoint characters (s : string) : list string :=
  match s with
  | EmptyString => []
  | String c rest => String c EmptyString :: characters rest
  end.

(** [iter(v)]: the items a [for] or [extend] draws from [v]; [None] when
    [v] is not iterable ([TypeError]). *)
Definition py_iter (v : JSON) : option (list JSON) :=
  match v with
  | JArray items => Some items
  | JString s => Some (JString <$> characters s)
  | JObject members => Some (JString <$> dict_keys members)
  | JNull | JBool _ | JNumber _ => None
  end.

Definition as_str (v : JSON) : option string :=
  match v with JString s => Some s | _ => None end.

(** [v == s] for a [str] literal [s]. *)
Definition is_str (v : option JSON) (s : string) : bool :=
  match v with Some (JString s') => bool_decide (s' = s) | _ => false end.

Section World.
Context {Value Time : Type}.

(** [{"value": ..., "timestamp": ...}] *)
Record Reading := { value : Value; timestamp : Time }.

(** The JSON texts the server writes. *)
Inductive frame :=
| Push (data_to_send : gmap string Reading)
    (** the broadcast: topic to reading *)
| StatusSubscribed (topics : JSON)
    (** [{"status": "subscribed", "topics": topics}] *)
| StatusUnsubscribed
    (** [{"status": "unsubscribed"}] *)
| ErrorFrame (error : string).
    (** [{"error": error}] *)

(** The globals [manager] and [data_store], the number of readings of
    [time.time()] taken so far, and the frames delivered so far, oldest
    first. *)
Record World := {
  manager : ConnectionManager;
  data_store : gmap string Value;
  time_reads : nat;
  outbox : list (WebSocket * frame)
}.

(** What app.py does not decide: the clock, and for each connection
    whether [send_json] raises (and what). *)
Record Env := {
  time_time : nat → Time;
  send_json_error : WebSocket → option exn
}.

Definition set_manager (m : ConnectionManager) (w : World) : World :=
  {| manager := m; data_store := data_store w;
     time_reads := time_reads w; outbox := outbox w |}.

Definition set_time_reads (n : nat) (w : World) : World :=
  {| manager := manager w; data_store := data_store w;
     time_reads := n; outbox := outbox w |}.

Definition deliver (websocket : WebSocket) (f : frame) (w : World) : World :=
  {| manager := manager w; data_store := data_store w;
     time_reads := time_reads w; outbox := outbox w ++ [(websocket, f)] |}.

(** [data_store[key] = v] *)
Definition store_set (key : string) (v : Value) (w : World) : World :=
  {| manager := manager w; data_store := <[key := v]> (data_store w);
     time_reads := time_reads w; outbox := outbox w |}.

(** [await websocket.send_json(f)] *)
Definition send_json (env : Env) (websocket : WebSocket) (f : frame) (w : World)
    : result World :=
  match send_json_error env websocket with
  | None => Ok (deliver websocket f w)
  | Some e => Raise e w
  end.

(** *** broadcast_data *)

(** One round of [for topic in topics]: the dictionary built so far and
    the number of clock readings taken. *)
Definition add_topic (env : Env) (store : gmap string Value)
    (acc : gmap string Reading * nat) (topic : string) : gmap string Reading * nat :=
  match store !! topic with
  | Some v =>
      (<[topic := {| value := v; timestamp := time_time env acc.2 |}]> acc.1, S acc.2)
  | None => acc
  end.

(** [data_to_send] once the inner loop is over. *)
Definition build_data (env : Env) (topics : list string) (w : World)
    : gmap string Reading * nat :=
  foldl (add_topic env (data_store w)) (∅, time_reads w) topics.

(** The body of [for websocket in self.active_connections]. The [except]
    clause calls [self.disconnect(websocket)], which returns [None], and
    awaits the result: [TypeError], raised in the handler, leaves
    [broadcast_data]. *)
Definition visit (env : Env) (websocket : WebSocket) (w : World) : result World :=
  match topics_of websocket (manager w) with
  | [] => Ok w
  | topics =>
      let built := build_data env topics w in
      let w1 := set_time_reads built.2 w in
      if decide (built.1 = ∅) then Ok w1
      else
        match send_json env websocket (Push built.1) w1 with
        | Ok w2 => Ok w2
        | Raise _ w2 =>
            Raise TypeError (set_manager (disconnect websocket (manager w2)) w2)
        end
  end.

(** The [for] statement: the list iterator holds a position [i] into the
    list object, which it reads again at every step. [None]: more steps
    than [fuel]. *)
Fixpoint broadcast_from (env : Env) (fuel i : nat) (w : World)
    : option (result World) :=
  match active_connections (manager w) !! i with
  | None => Some (Ok w)
  | Some websocket =>
      match fuel with
      | 0 => None
      | S fuel' =>
          match visit env websocket w with
          | Ok w' => broadcast_from env fuel' (S i) w'
          | Raise e w' => Some (Raise e w')
          end
      end
  end.

(** [ConnectionManager.broadcast_data] *)
Definition broadcast_data (env : Env) (w : World) : option (result World) :=
  broadcast_from env (length (active_connections (manager w))) 0 w.

(** *** generate_data *)

(** The keys one round of [generate_data] writes, in order. *)
Definition produced_keys : list string :=
  ((λ ticker, "STOCK:" +:+ ticker) <$> ["MSFT"; "AAPL"; "GOOG"; "AMZN"])
  ++ ((λ sensor_id, "SENSOR:" +:+ sensor_id) <$> ["1"; "2"; "3"; "4"]).

(** The writes of one round. The value written for a key comes from
    [random]: it is an input, [draw key]. *)
Definition produce (draw : string → Value) (w : World) : World :=
  foldl (λ w key, store_set key (draw key) w) w produced_keys.

(** [generate_data], followed for the rounds of [draws]: [Ok] when it is
    asleep after the last of them, [Raise] when an exception ended the
    task before. *)
Fixpoint generate_data (env : Env) (draws : list (string → Value)) (w : World)
    : option (result World) :=
  match draws with
  | [] => Some (Ok w)
  | draw :: draws' =>
      match broadcast_data env (produce draw w) with
      | Some (Ok w') => generate_data env draws' w'
      | other => other
      end
  end.

(** *** GET /data/{data_type}/{param} *)

Inductive body :=
| DataBody (r : Reading)
| ErrorBody (error : string).

Definition get_data (env : Env) (data_type param : string) (w : World)
    : body * World :=
  let key := data_type +:+ ":" +:+ param in
  match data_store w !! key with
  | Some v =>
      (DataBody {| value := v; timestamp := time_time env (time_reads w) |},
       set_time_reads (S (time_reads w)) w)
  | None => (ErrorBody "Data not found", w)
  end.

(** *** The websocket route *)

(** What one turn of [while True] meets. *)
Inductive inbound :=
| Received (loads : option JSON)
    (** [receive_text] returned [data]; [loads] is [json.loads(data)],
        [None] when it raises [JSONDecodeError] *)
| ReceiveRaises (e : exn).

(** How a call of [websocket_endpoint] stands after the events given.
    [Untyped]: a [subscribe] command put a value that is not a [str]
    among the topics; the manager, whose lists are [list[str]], is not
    followed further. *)
Inductive served :=
| Awaiting (w : World)
| Returned (w : World)
| Escaped (e : exn) (w : World)
| Untyped.

(** [manager.subscribe(websocket, topics)] on a decoded [topics]. *)
Definition subscribe_json `{SetOrder} (websocket : WebSocket) (topics : JSON)
    (w : World) : option (result World) :=
  match subscriptions (manager w) !! websocket with
  | None => Some (Ok w)
  | Some _ =>
      match py_iter topics with
      | None => Some (Raise TypeError w)
      | Some items =>
          match mapM as_str items with
          | Some strs =>
              Some (Ok (set_manager (subscribe websocket strs (manager w)) w))
          | None => None
          end
      end
  end.

(** [manager.unsubscribe(websocket, topics)] on [message.get("topics")].
    An item that is not a [str] equals no element of a [list[str]]: the
    loop passes over it. *)
Definition unsubscribe_json (websocket : WebSocket) (topics : option JSON)
    (w : World) : result World :=
  match subscriptions (manager w) !! websocket with
  | None => Ok w
  | Some _ =>
      match topics with
      | None | Some JNull =>
          Ok (set_manager (unsubscribe websocket None (manager w)) w)
      | Some v =>
          match py_iter v with
          | None => Raise TypeError w
          | Some items =>
              Ok (set_manager
                    (unsubscribe websocket (Some (omap as_str items)) (manager w)) w)
          end
      end
  end.

(** The inner [try] statement with its [except json.JSONDecodeError]. *)
Definition on_frame `{SetOrder} (env : Env) (websocket : WebSocket)
    (loads : option JSON) (w : World) : option (result World) :=
  match loads with
  | None => Some (send_json env websocket (ErrorFrame "Invalid JSON") w)
  | Some (JObject members) =>
      let command := dict_get "command" members in
      if is_str command "subscribe" then
        let topics := default (JArray []) (dict_get "topics" members) in
        match subscribe_json websocket topics w with
        | Some (Ok w') => Some (send_json env websocket (StatusSubscribed topics) w')
        | other => other
        end
      else if is_str command "unsubscribe" then
        match unsubscribe_json websocket (dict_get "topics" members) w with
        | Ok w' => Some (send_json env websocket StatusUnsubscribed w')
        | Raise e w' => Some (Raise e w')
        end
      else Some (send_json env websocket (ErrorFrame "Unknown command") w)
  | Some _ => Some (Raise AttributeError w)
  end.

(** An exception reaching the outer [try]: [except WebSocketDisconnect]
    disconnects and the route returns; any other leaves the route. *)
Definition on_exception (websocket : WebSocket) (e : exn) (w : World) : served :=
  match e with
  | WebSocketDisconnect => Returned (set_manager (disconnect websocket (manager w)) w)
  | _ => Escaped e w
  end.

(** [while True] over the events given. *)
Fixpoint receive_loop `{SetOrder} (env : Env) (websocket : WebSocket)
    (events : list inbound) (w : World) : served :=
  match events with
  | [] => Awaiting w
  | ReceiveRaises e :: _ => on_exception websocket e w
  | Received loads :: events' =>
      match on_frame env websocket loads w with
      | None => Untyped
      | Some (Ok w') => receive_loop env websocket events' w'
      | Some (Raise e w') => on_exception websocket e w'
      end
  end.

(** [websocket_endpoint] *)
Definition websocket_endpoint `{SetOrder} (env : Env) (websocket : WebSocket)
    (accept : option exn) (events : list inbound) (w : World) : served :=
  match connect websocket accept (manager w) with
  | Raise e _ => Escaped e w
  | Ok m => receive_loop env websocket events (set_manager m w)
  end.

End World.

Arguments Reading : clear implicits.
Arguments frame : clear implicits.
Arguments World : clear implicits.
Arguments Env : clear implicits.
Arguments body : clear implicits.
Arguments inbound : clear implicits.
Arguments served : clear implicits.

(** ** Notions used in the statements *)

Section Notions.
Context {Value Time : Type}.
Implicit Types (w : World Value Time) (env : Env Time).

(** Some topic of the list has a value in the store. *)
Definition has_data (store : gmap string Value) (topics : list string) : Prop :=
  Exists (λ topic, is_Some (store !! topic)) topics.

#[export] Instance has_data_dec store topics : Decision (has_data store topics).
Proof. unfold has_data. apply _. Defined.

(** [d] holds the topics of the list that have a value in the store, and
    no other, each with the value stored. *)
Definition snapshot_of (store : gmap string Value) (topics : list string)
    (d : gmap string (Reading Value Time)) : Prop :=
  ∀ topic,
    value <$> (d !! topic) = if decide (topic ∈ topics) then store !! topic else None.

(** The iteration of [broadcast_data] over a list that does not change
    under it. *)
Fixpoint visit_all env (l : list WebSocket) w : result (World Value Time) :=
  match l with
  | [] => Ok w
  | websocket :: l' =>
      match visit env websocket w with
      | Ok w' => visit_all env l' w'
      | Raise e w' => Raise e w'
      end
  end.

(** The frames that [w'] has and [w] had not. *)
Definition delivered_since w w' (frames : list (WebSocket * frame Value Time)) : Prop :=
  outbox w' = (outbox w ++ frames)%list.

(** Every frame of the list is a broadcast of what the store holds for
    the topics of its connection. *)
Definition snapshots w (frames : list (WebSocket * frame Value Time)) : Prop :=
  Forall (λ sent,
            ∃ d, sent.2 = Push d
                 ∧ snapshot_of (data_store w) (topics_of sent.1 (manager w)) d)
         frames.



Definition is_object (loads : option JSON) : Prop :=
  ∃ members, loads = Some (JObject members).

(** The writes of the producer, as a list of assignments. *)
Definition store_writes (writes : list (string * Value)) w : World Value Time :=
  foldl (λ w kv, store_set kv.1 kv.2 w) w writes.
End Notions.

Section MoreNotions.
Context {Value Time : Type}.
Implicit Types (w : World Value Time) (env : Env Time).

(** Every frame of the list is a broadcast with at least one topic. *)
Definition pushes_data (frames : list (WebSocket * frame Value Time)) : Prop :=
  Forall (λ sent, ∃ d, sent.2 = Push d ∧ d ≠ ∅) frames.

(** Every timestamp in the frames of the list is a reading of the clock
    with a number from [lo] up to, not including, [hi]. *)
Definition stamped_between env (lo hi : nat)
    (frames : list (WebSocket * frame Value Time)) : Prop :=
  Forall (λ sent,
            ∀ d topic reading,
              sent.2 = Push d → d !! topic = Some reading →
              ∃ k, (lo ≤ k < hi)%nat ∧ timestamp reading = time_time env k)
         frames.

(** The subscribed topics of a connection that have a value in the store,
    as often as they are in its list. *)
Definition topics_with_data w (websocket : WebSocket) : list string :=
  filter (λ topic, is_Some (data_store w !! topic)) (topics_of websocket (manager w)).

(** From [w] to [w'] nothing changed but the subscription list of one
    registered connection and the frames sent to that connection. *)
Definition touches_only (websocket : WebSocket) w w' : Prop :=
  data_store w' = data_store w
  ∧ time_reads w' = time_reads w
  ∧ active_connections (manager w') = active_connections (manager w)
  ∧ dom (subscriptions (manager w')) = dom (subscriptions (manager w))
  ∧ (∀ other, other ≠ websocket →
       subscriptions (manager w') !! other = subscriptions (manager w) !! other)
  ∧ ∃ frames,
      delivered_since w w' frames ∧ Forall (λ sent, sent.1 = websocket) frames.

(** The manager and the store of a world, the state of the clock and the
    frames sent apart. *)
Definition same_registry_and_store w w' : Prop :=
  manager w' = manager w ∧ data_store w' = data_store w.
End MoreNotions.

(** Every subscription list is without duplicates. *)
Definition lists_without_duplicates (self : ConnectionManager) : Prop :=
  ∀ websocket current,
    subscriptions self !! websocket = Some current → NoDup current.

(** The number of entries of a connection in the live list. *)
Definition entries (websocket : WebSocket) (self : ConnectionManager) : nat :=
  length (filter (λ x, x = websocket) (active_connections self)).

(** Registering again changes nothing. *)
Definition reconnect_is_noop (websocket : WebSocket) (self : ConnectionManager) : Prop :=
  let self' := state_of (connect websocket None self) in
  entries websocket self' = entries websocket self
  ∧ subscribed websocket self' = subscribed websocket self.

(** A connection is live exactly when it has a subscription entry. *)
Definition live_iff_entry (self : ConnectionManager) : Prop :=
  ∀ websocket,
    websocket ∈ active_connections self ↔ is_Some (subscriptions self !! websocket).

(** ** Sample worlds *)

Definition every_send_goes_through : Env nat :=
  {| time_time := λ n, n; send_json_error := λ _, None |}.

(** The transport of connection 1 is gone: a send to it raises. *)
Definition first_is_down : Env nat :=
  {| time_time := λ n, n;
     send_json_error := λ websocket,
       if decide (websocket = 1) then Some RuntimeError else None |}.

(** Connections 1 and 2, in that order, both subscribed to STOCK:AAPL. *)
Definition two_subscribers : ConnectionManager :=
  run_ops [Connect 1 None; Connect 2 None;
           Subscribe 1 ["STOCK:AAPL"]; Subscribe 2 ["STOCK:AAPL"]] new_manager.

(** The scenario of the specification: one subscriber of STOCK:AAPL and
    SENSOR:1. *)
Definition scenario_subscriber : ConnectionManager :=
  run_ops [Connect 1 None; Subscribe 1 ["STOCK:AAPL"; "SENSOR:1"]] new_manager.

Definition world_of (m : ConnectionManager) (store : gmap string Q) : World Q nat :=
  {| manager := m; data_store := store; time_reads := 0; outbox := [] |}.

Definition aapl_only : gmap string Q := {[ "STOCK:AAPL" := 101.23%Q ]}.

(** A live connection whose subscription entry is missing. *)
Definition entry_missing : ConnectionManager :=
  {| active_connections := [7]; subscriptions := ∅ |}.

(** ** Properties of the registry *)

Section ListRemove.
Context {A : Type} `{EqDecision A}.
Implicit Types (x y : A) (l : list A).

Lemma elem_of_list_remove_first x y l :
  y ∈ list_remove_first x l → y ∈ l.
Proof.
  induction l as [|z l IH]; simpl; [done|].
  case_decide; set_solver.
Qed.

Lemma elem_of_list_remove_first_ne x y l :
  x ≠ y → y ∈ l → y ∈ list_remove_first x l.
Proof.
  intros Hne. induction l as [|z l IH]; simpl; [done|].
  case_decide; set_solver.
Qed.

Lemma NoDup_list_remove_first x l :
  NoDup l → NoDup (list_remove_first x l).
Proof.
  induction 1 as [|z l Hz Hl IH]; simpl; [constructor|].
  case_decide; [done|].
  constructor; [|done].
  intros Hin. by apply Hz, (elem_of_list_remove_first x).
Qed.

Lemma not_elem_of_list_remove_first x l :
  NoDup l → x ∉ list_remove_first x l.
Proof.
  induction 1 as [|z l Hz Hl IH]; simpl; [set_solver|].
  case_decide; [by subst|set_solver].
Qed.

Lemma length_filter_list_remove_first x l :
  x ∈ l →
  S (length (filter (λ y, y = x) (list_remove_first x l)))
  = length (filter (λ y, y = x) l).
Proof.
  induction l as [|z l IH]; simpl; [by intros ?%elem_of_nil|].
  intros Hin. case_decide as Hxz.
  - subst z. by rewrite filter_cons_True.
  - rewrite !filter_cons_False by congruence.
    apply IH. set_solver.
Qed.
End ListRemove.

Section Registry.
Context `{SetOrder}.
Implicit Types (self : ConnectionManager) (websocket : WebSocket).

Lemma subscribe_active websocket topics self :
  active_connections (subscribe websocket topics self) = active_connections self.
Proof. unfold subscribe. by destruct (subscriptions self !! websocket). Qed.

Lemma unsubscribe_active websocket topics self :
  active_connections (unsubscribe websocket topics self) = active_connections self.
Proof. unfold unsubscribe. by destruct (subscriptions self !! websocket). Qed.

(** [subscribe] and [unsubscribe] neither create nor remove an entry. *)
Lemma subscribe_entry websocket topics self other :
  is_Some (subscriptions (subscribe websocket topics self) !! other)
  ↔ is_Some (subscriptions self !! other).
Proof.
  unfold subscribe. destruct (subscriptions self !! websocket) eqn:E; [|done]. simpl.
  rewrite lookup_insert. case_decide; [subst; rewrite E|done]. by split; eauto.
Qed.

Lemma unsubscribe_entry websocket topics self other :
  is_Some (subscriptions (unsubscribe websocket topics self) !! other)
  ↔ is_Some (subscriptions self !! other).
Proof.
  unfold unsubscribe. destruct (subscriptions self !! websocket) eqn:E; [|done]. simpl.
  rewrite lookup_insert. case_decide; [subst; rewrite E|done]. by split; eauto.
Qed.

Lemma disconnect_entry websocket self other :
  is_Some (subscriptions (disconnect websocket self) !! other)
  ↔ other ≠ websocket ∧ is_Some (subscriptions self !! other).
Proof.
  unfold disconnect. simpl. case_decide as Hin.
  - rewrite lookup_delete. case_decide; subst.
    + split; [by intros [? ?]|by intros [? _]].
    + naive_solver.
  - split; [|by intros [_ ?]].
    intros Hother. split; [|done]. by intros ->.
Qed.

Lemma disconnect_live websocket self other :
  other ≠ websocket →
  other ∈ active_connections (disconnect websocket self)
  ↔ other ∈ active_connections self.
Proof.
  intros Hne. unfold disconnect. simpl. case_decide; [|done]. split.
  - apply elem_of_list_remove_first.
  - by apply elem_of_list_remove_first_ne.
Qed.

(** Every entry belongs to a live connection. *)
Definition entry_is_live self : Prop :=
  ∀ websocket,
    is_Some (subscriptions self !! websocket) → websocket ∈ active_connections self.

Lemma apply_op_entry_is_live self op :
  entry_is_live self → entry_is_live (apply_op self op).
Proof.
  intros Hinv ws. destruct op as [ws' [e|]|ws'|ws' topics|ws' topics]; cbn.
  - apply Hinv.
  - rewrite lookup_insert, elem_of_app, list_elem_of_singleton.
    case_decide; [by right|]. intros ?%Hinv. by left.
  - intros [Hne ?%Hinv]%disconnect_entry. by apply disconnect_live.
  - rewrite subscribe_entry, subscribe_active. apply Hinv.
  - rewrite unsubscribe_entry, unsubscribe_active. apply Hinv.
Qed.

Lemma run_ops_entry_is_live ops self :
  entry_is_live self → entry_is_live (run_ops ops self).
Proof.
  revert self. induction ops as [|op ops IH]; intros self Hinv; [done|].
  apply IH. by apply apply_op_entry_is_live.
Qed.

(** The stronger invariant kept when no live connection is connected
    again. *)
Definition registered_once self : Prop :=
  NoDup (active_connections self) ∧ live_iff_entry self.

Lemma apply_op_registered_once self op :
  registered_once self →
  match op with
  | Connect websocket None => websocket ∉ active_connections self
  | _ => True
  end →
  registered_once (apply_op self op).
Proof.
  intros [Hnodup Hiff] Hfresh.
  destruct op as [ws' [e|]|ws'|ws' topics|ws' topics]; cbn.
  - done.
  - split; cbn.
    + apply NoDup_app. split_and!; [done| |apply NoDup_singleton].
      intros x Hx ->%list_elem_of_singleton. done.
    + intros ws. cbn. rewrite lookup_insert, elem_of_app, list_elem_of_singleton.
      case_decide; [subst; by split; eauto|].
      rewrite (Hiff ws). naive_solver.
  - split.
    + unfold disconnect. simpl. case_decide; [|done].
      by apply NoDup_list_remove_first.
    + intros ws. rewrite disconnect_entry.
      destruct (decide (ws = ws')) as [->|Hne].
      * split; [|by intros [? _]].
        unfold disconnect. simpl. case_decide as Hin.
        -- intros Hin'. by apply not_elem_of_list_remove_first in Hin'.
        -- done.
      * rewrite (disconnect_live _ _ _ Hne), (Hiff ws). naive_solver.
  - split.
    + by rewrite subscribe_active.
    + intros ws. by rewrite subscribe_entry, subscribe_active.
  - split.
    + by rewrite unsubscribe_active.
    + intros ws. by rewrite unsubscribe_entry, unsubscribe_active.
Qed.

Lemma run_ops_registered_once ops self :
  registered_once self → connects_fresh ops self →
  registered_once (run_ops ops self).
Proof.
  revert self. induction ops as [|op ops IH]; intros self Hinv Hfresh; [done|].
  destruct Hfresh as [Hop Hfresh]. apply IH; [|done].
  by apply apply_op_registered_once.
Qed.

Lemma new_manager_registered_once : registered_once new_manager.
Proof.
  split; [constructor|]. intros ws. simpl. rewrite lookup_empty.
  split; [by intros ?%elem_of_nil|by intros [? ?]].
Qed.
End Registry.

(** C4, as amended. [connect] does not look whether the connection is
    already registered. When [accept] returns, the connection gets one more
    entry in the live list and its subscription list is set to the empty
    list, whatever it was; the other connections keep their entries and
    their subscriptions. For a connection that is not registered yet this is
    registration: one live entry, an empty subscription set. When [accept]
    raises, the manager is left as it was. *)
Theorem connect_appends_and_resets (websocket : WebSocket) (self : ConnectionManager) :
  let self' := state_of (connect websocket None self) in
  entries websocket self' = S (entries websocket self)
  ∧ topics_of websocket self' = []
  ∧ (∀ other, other ≠ websocket →
       entries other self' = entries other self
       ∧ subscriptions self' !! other = subscriptions self !! other)
  ∧ (∀ e, state_of (connect websocket (Some e) self) = self).
Proof.
  cbn. unfold entries, topics_of. cbn. split_and!.
  - rewrite filter_app, length_app, filter_cons_True by done.
    cbn. lia.
  - by rewrite lookup_insert_eq.
  - intros other Hne. split.
    + rewrite filter_app, length_app, filter_cons_False by done.
      cbn. lia.
    + by rewrite lookup_insert_ne.
  - done.
Qed.

(** C4, as stated, fails: connecting the subscriber of the scenario a second
    time gives it a second live entry and empties its subscription set. *)
Lemma reconnect_is_not_noop :
  1 ∈ active_connections scenario_subscriber
  ∧ ¬ reconnect_is_noop 1 scenario_subscriber.
Proof.
  split.
  - vm_compute. apply list_elem_of_here.
  - intros [Hentries _]. vm_compute in Hentries. discriminate.
Qed.

(** C5, as amended. After every sequence of [connect], [disconnect],
    [subscribe] and [unsubscribe] on a new manager, every connection that
    has a subscription entry is live. When no operation of the sequence
    connects a connection that is live at that point, the converse holds as
    well, and no connection has two live entries. *)
Theorem entries_follow_connections `{SetOrder} (ops : list registry_op) :
  let self := run_ops ops new_manager in
  (∀ websocket,
     is_Some (subscriptions self !! websocket) →
     websocket ∈ active_connections self)
  ∧ (connects_fresh ops new_manager →
     live_iff_entry self ∧ NoDup (active_connections self)).
Proof.
  cbn. split.
  - apply run_ops_entry_is_live. intros ws. cbn. rewrite lookup_empty.
    by intros [? ?].
  - intros Hfresh.
    destruct (run_ops_registered_once ops new_manager
                new_manager_registered_once Hfresh) as [? ?].
    done.
Qed.

Lemma entries_follow_connections_witness :
  let ops := [Connect 1 None; Subscribe 1 ["A"]; Connect 2 None;
              Disconnect 1; Connect 1 None; Unsubscribe 2 None] in
  connects_fresh ops new_manager
  ∧ live_iff_entry (run_ops ops new_manager).
Proof.
  cbn zeta.
  assert (connects_fresh
            [Connect 1 None; Subscribe 1 ["A"]; Connect 2 None;
             Disconnect 1; Connect 1 None; Unsubscribe 2 None] new_manager)
    as Hfresh.
  { apply (bool_decide_unpack _). vm_compute. exact I. }
  split; [exact Hfresh|].
  exact (proj1 (proj2 (entries_follow_connections _) Hfresh)).
Defined.

(** C5, as stated, fails: a connection connected twice and disconnected
    once is still in the live list and has no subscription entry. *)
Lemma double_connect_breaks_invariant :
  ¬ live_iff_entry (run_ops [Connect 1 None; Connect 1 None; Disconnect 1] new_manager).
Proof.
  intros Hiff. destruct (proj1 (Hiff 1)) as [topics Htopics].
  - vm_compute. apply list_elem_of_here.
  - vm_compute in Htopics. discriminate.
Qed.

(** C8. For a registered connection [subscribe] is a union of sets: the
    subscribed set becomes the old one joined with the topics of the list,
    the stored list holds no topic twice, two lists with the same topics
    (as [["A"; "A"; "B"]] and [["A"; "B"]]) give the same subscribed set,
    and the same call made again changes nothing. *)
Theorem subscribe_is_set_union `{SetOrder} (websocket : WebSocket)
    (topics : list string) (self : ConnectionManager) :
  is_Some (subscriptions self !! websocket) →
  let self' := subscribe websocket topics self in
  subscribed websocket self' = subscribed websocket self ∪ list_to_set topics
  ∧ NoDup (topics_of websocket self')
  ∧ (∀ topics', list_to_set topics' =@{gset string} list_to_set topics →
       subscribed websocket (subscribe websocket topics' self)
       = subscribed websocket self')
  ∧ subscribed websocket (subscribe websocket topics self')
    = subscribed websocket self'.
Proof.
  intros [current Hcurrent]. cbn.
  assert (∀ topics0 self0 current0,
            subscriptions self0 !! websocket = Some current0 →
            subscribed websocket (subscribe websocket topics0 self0)
            = list_to_set current0 ∪ list_to_set topics0) as Hunion.
  { intros topics0 self0 current0 Hcurrent0.
    unfold subscribed, topics_of, subscribe. rewrite Hcurrent0. cbn.
    rewrite lookup_insert_eq. cbn. apply set_eq. intros topic.
    rewrite elem_of_union, !elem_of_list_to_set, elem_of_list_of_set, elem_of_app.
    done. }
  assert (subscribed websocket self = list_to_set current) as Hold.
  { unfold subscribed, topics_of. by rewrite Hcurrent. }
  split_and!.
  - by rewrite (Hunion _ _ _ Hcurrent), Hold.
  - unfold topics_of, subscribe. rewrite Hcurrent. cbn.
    rewrite lookup_insert_eq. apply list_of_set_NoDup.
  - intros topics' Hsame.
    by rewrite !(Hunion _ _ _ Hcurrent), Hsame.
  - assert (subscriptions (subscribe websocket topics self) !! websocket
            = Some (list_of_set (current ++ topics))) as Hnew.
    { unfold subscribe. rewrite Hcurrent. cbn. by rewrite lookup_insert_eq. }
    rewrite (Hunion _ _ _ Hnew), (Hunion _ _ _ Hcurrent).
    apply set_eq. intros topic.
    rewrite !elem_of_union, !elem_of_list_to_set, elem_of_list_of_set, elem_of_app.
    tauto.
Qed.

Lemma subscribe_is_set_union_witness :
  is_Some (subscriptions scenario_subscriber !! 1)
  ∧ subscribed 1 (subscribe 1 ["A"; "A"; "B"] scenario_subscriber)
    = subscribed 1 (subscribe 1 ["A"; "B"] scenario_subscriber).
Proof.
  assert (is_Some (subscriptions scenario_subscriber !! 1)) as Hregistered.
  { vm_compute. eauto. }
  split; [exact Hregistered|].
  apply (subscribe_is_set_union 1 ["A"; "B"] scenario_subscriber Hregistered).
  vm_compute. reflexivity.
Defined.

(** C9. [unsubscribe] without a topic list leaves the connection with no
    subscribed topic, whatever it was subscribed to and whether or not it is
    registered. *)
Theorem unsubscribe_all_clears (websocket : WebSocket) (self : ConnectionManager) :
  topics_of websocket (unsubscribe websocket None self) = []
  ∧ subscribed websocket (unsubscribe websocket None self) = ∅.
Proof.
  assert (topics_of websocket (unsubscribe websocket None self) = []) as Hnil.
  { unfold topics_of, unsubscribe.
    destruct (subscriptions self !! websocket) eqn:E; cbn.
    - by rewrite lookup_insert_eq.
    - by rewrite E. }
  split; [done|]. unfold subscribed. by rewrite Hnil.
Qed.

(** ** Properties of the broadcast *)

Section Broadcast.
Context {Value Time : Type}.
Implicit Types (w : World Value Time) (env : Env Time).
Implicit Types (store : gmap string Value) (d : gmap string (Reading Value Time)).

Lemma set_time_reads_same w : set_time_reads (time_reads w) w = w.
Proof. by destruct w. Qed.

(** The inner loop, from any dictionary: a topic of the list with a value
    in the store is bound to that value, any other topic is left as it
    was; the clock is read only for topics with a value. *)
Lemma foldl_add_topic env store topics :
  ∀ d0 n0,
    let built := foldl (add_topic env store) (d0, n0) topics in
    (∀ topic,
       value <$> (built.1 !! topic)
       = match (if decide (topic ∈ topics) then store !! topic else None) with
         | Some v => Some v
         | None => value <$> (d0 !! topic)
         end)
    ∧ (n0 ≤ built.2)%nat
    ∧ (¬ has_data store topics → built = (d0, n0))
    ∧ (has_data store topics → built.1 ≠ ∅ ∧ (n0 < built.2)%nat).
Proof.
  induction topics as [|topic0 topics IH]; intros d0 n0; cbn.
  - split_and!; [done|lia| |].
    + done.
    + by intros ?%Exists_nil.
  - unfold has_data. rewrite Exists_cons. fold (has_data store topics).
    destruct (store !! topic0) as [v0|] eqn:Hv0.
    + assert (add_topic env store (d0, n0) topic0
              = (<[topic0 := {| value := v0; timestamp := time_time env n0 |}]> d0,
                 S n0)) as ->.
      { unfold add_topic. by rewrite Hv0. }
      destruct (IH (<[topic0 := {| value := v0; timestamp := time_time env n0 |}]> d0)
                  (S n0)) as (Hval & Hle & _ & _).
      cbn in Hval, Hle.
      assert (∀ topic,
                value <$> ((foldl (add_topic env store)
                   (<[topic0 := {| value := v0; timestamp := time_time env n0 |}]> d0,
                    S n0) topics).1 !! topic)
                = match (if decide (topic ∈ topic0 :: topics)
                         then store !! topic else None) with
                  | Some v => Some v
                  | None => value <$> (d0 !! topic)
                  end) as Hval'.
      { intros topic. rewrite Hval.
        destruct (decide (topic = topic0)) as [->|Hne].
        - rewrite (decide_True (P := topic0 ∈ topic0 :: topics))
            by apply list_elem_of_here.
          rewrite Hv0.
          destruct (decide (topic0 ∈ topics)); [done|].
          by rewrite lookup_insert_eq.
        - rewrite lookup_insert_ne by done.
          destruct (decide (topic ∈ topics)) as [Hin|Hnin].
          + rewrite (decide_True (P := topic ∈ topic0 :: topics));
              [done|by apply list_elem_of_further].
          + rewrite (decide_False (P := topic ∈ topic0 :: topics)); [done|].
            intros [?|?]%elem_of_cons; done. }
      split; [exact Hval'|]. split; [lia|]. split.
      * intros Hno. exfalso. apply Hno. left. by exists v0.
      * intros _. split; [|lia].
        intros Hempty.
        specialize (Hval' topic0). rewrite Hempty, lookup_empty in Hval'.
        rewrite (decide_True (P := topic0 ∈ topic0 :: topics)) in Hval'
          by apply list_elem_of_here.
        by rewrite Hv0 in Hval'.
    + assert (add_topic env store (d0, n0) topic0 = (d0, n0)) as ->.
      { unfold add_topic. by rewrite Hv0. }
      destruct (IH d0 n0) as (Hval & Hle & Hnone & Hsome).
      cbn in Hval, Hle, Hnone, Hsome.
      split; [|split; [done|split]].
      * intros topic. rewrite Hval.
        destruct (decide (topic = topic0)) as [->|Hne].
        -- rewrite (decide_True (P := topic0 ∈ topic0 :: topics))
             by apply list_elem_of_here.
           rewrite Hv0. by destruct (decide (topic0 ∈ topics)).
        -- destruct (decide (topic ∈ topics)) as [Hin|Hnin].
           ++ rewrite (decide_True (P := topic ∈ topic0 :: topics));
                [done|by apply list_elem_of_further].
           ++ rewrite (decide_False (P := topic ∈ topic0 :: topics)); [done|].
              intros [?|?]%elem_of_cons; done.
      * intros Hno. apply Hnone. intros ?. apply Hno. by right.
      * intros [[? [=]]|Hdata]. by apply Hsome.
Qed.

(** What [data_to_send] is after the inner loop. *)
Lemma build_data_snapshot env topics w :
  snapshot_of (data_store w) topics (build_data env topics w).1.
Proof.
  intros topic. unfold build_data.
  destruct (foldl_add_topic env (data_store w) topics ∅ (time_reads w))
    as (Hval & _). cbn in Hval. rewrite Hval, lookup_empty. cbn.
  by destruct (decide (topic ∈ topics)); [destruct (data_store w !! topic)|].
Qed.

Lemma build_data_no_data env topics w :
  ¬ has_data (data_store w) topics → build_data env topics w = (∅, time_reads w).
Proof.
  unfold build_data.
  by destruct (foldl_add_topic env (data_store w) topics ∅ (time_reads w))
    as (_ & _ & Hnone & _).
Qed.

Lemma build_data_has_data env topics w :
  has_data (data_store w) topics → (build_data env topics w).1 ≠ ∅.
Proof.
  unfold build_data. intros Hdata.
  destruct (foldl_add_topic env (data_store w) topics ∅ (time_reads w))
    as (_ & _ & _ & Hsome).
  by destruct (Hsome Hdata).
Qed.

(** One visit of the loop: nothing happens for a connection without
    data; for one with data the frame is built and the send tried. *)
Lemma visit_cases env websocket w :
  let topics := topics_of websocket (manager w) in
  (¬ has_data (data_store w) topics ∧ visit env websocket w = Ok w)
  ∨ (has_data (data_store w) topics
     ∧ ∃ d n,
         snapshot_of (data_store w) topics d
         ∧ visit env websocket w
           = match send_json_error env websocket with
             | None => Ok (deliver websocket (Push d) (set_time_reads n w))
             | Some _ =>
                 Raise TypeError
                   (set_manager (disconnect websocket (manager w))
                      (set_time_reads n w))
             end).
Proof.
  cbn. unfold visit.
  destruct (topics_of websocket (manager w)) as [|topic topics] eqn:Htopics.
  { left. split; [by intros ?%Exists_nil|done]. }
  set (subscribed_topics := topic :: topics).
  destruct (decide (has_data (data_store w) subscribed_topics)) as [Hdata|Hno].
  - right. split; [done|].
    rewrite decide_False by by apply build_data_has_data.
    exists (build_data env subscribed_topics w).1,
           (build_data env subscribed_topics w).2.
    split; [apply build_data_snapshot|].
    unfold send_json. by destruct (send_json_error env websocket).
  - left. split; [done|].
    rewrite (build_data_no_data _ _ _ Hno). cbn. rewrite decide_True by done.
    by rewrite set_time_reads_same.
Qed.

(** A visit that returns leaves the manager and the store as they were. *)
Lemma visit_Ok env websocket w w' :
  visit env websocket w = Ok w' →
  manager w' = manager w ∧ data_store w' = data_store w.
Proof.
  destruct (visit_cases env websocket w) as [[_ ->]|(_ & d & n & _ & ->)].
  - by intros [= <-].
  - destruct (send_json_error env websocket); [done|]. by intros [= <-].
Qed.

(** The [for] statement runs through the whole list: with fuel for the
    entries from [i] on, it is the iteration over them. *)
Lemma broadcast_from_visit_all env fuel :
  ∀ i w,
    (length (active_connections (manager w)) - i ≤ fuel)%nat →
    broadcast_from env fuel i w
    = Some (visit_all env (drop i (active_connections (manager w))) w).
Proof.
  induction fuel as [|fuel IH]; intros i w Hfuel.
  - rewrite drop_ge by lia. cbn.
    by rewrite lookup_ge_None_2 by lia.
  - cbn. destruct (active_connections (manager w) !! i) as [websocket|] eqn:Hi.
    + rewrite (drop_S _ _ _ Hi). cbn.
      destruct (visit env websocket w) as [w'|e w'] eqn:Hvisit; [|done].
      destruct (visit_Ok _ _ _ _ Hvisit) as [Hmanager _].
      rewrite IH by (rewrite Hmanager; lia). by rewrite Hmanager.
    + apply lookup_ge_None_1 in Hi. by rewrite drop_ge by lia.
Qed.

(** [broadcast_data] always comes to an end: it is the iteration over the
    live list as it stands when the broadcast starts. *)
Lemma broadcast_data_visit_all env w :
  broadcast_data env w = Some (visit_all env (active_connections (manager w)) w).
Proof.
  unfold broadcast_data. rewrite broadcast_from_visit_all by lia.
  by rewrite drop_0.
Qed.

(** The iteration when no send raises. *)
Lemma visit_all_delivers env l :
  ∀ w,
    (∀ websocket, websocket ∈ l → send_json_error env websocket = None) →
    ∃ w' frames,
      visit_all env l w = Ok w'
      ∧ manager w' = manager w
      ∧ data_store w' = data_store w
      ∧ delivered_since w w' frames
      ∧ frames.*1
        = filter (λ websocket,
                    has_data (data_store w) (topics_of websocket (manager w))) l
      ∧ snapshots w frames.
Proof.
  induction l as [|websocket l IH]; intros w Hsend.
  { exists w, []. cbn. unfold delivered_since, snapshots.
    by rewrite app_nil_r. }
  cbn.
  destruct (visit_cases env websocket w)
    as [[Hno Hvisit]|(Hdata & d & n & Hsnapshot & Hvisit)]; rewrite Hvisit.
  - destruct (IH w) as (w' & frames & Hrun & Hm & Hs & Hout & Hto & Hsnap).
    { intros ? ?. apply Hsend. by right. }
    exists w', frames. rewrite decide_False by done. done.
  - rewrite (Hsend websocket) by left.
    set (w1 := deliver websocket (Push d) (set_time_reads n w)).
    destruct (IH w1) as (w' & frames & Hrun & Hm & Hs & Hout & Hto & Hsnap).
    { intros ? ?. apply Hsend. by right. }
    exists w', ((websocket, Push d) :: frames).
    rewrite decide_True by done.
    split_and!; try done.
    + unfold delivered_since in *. rewrite Hout. cbn. by rewrite <- app_assoc.
    + cbn. by rewrite Hto.
    + constructor; [by exists d|done].
Qed.

Lemma visit_all_app env l1 l2 w :
  visit_all env (l1 ++ l2) w
  = match visit_all env l1 w with
    | Ok w' => visit_all env l2 w'
    | Raise e w' => Raise e w'
    end.
Proof.
  revert w. induction l1 as [|websocket l1 IH]; intros w; cbn; [done|].
  by destruct (visit env websocket w).
Qed.

Lemma visit_all_Ok env l :
  ∀ w w', visit_all env l w = Ok w' →
          manager w' = manager w ∧ data_store w' = data_store w.
Proof.
  induction l as [|websocket l IH]; intros w w'; cbn.
  - by intros [= <-].
  - destruct (visit env websocket w) as [w1|e w1] eqn:Hvisit; [|done].
    intros [Hm Hs]%IH. destruct (visit_Ok _ _ _ _ Hvisit) as [Hm1 Hs1].
    by rewrite Hm, Hs.
Qed.

(** A connection without subscription entry is passed over. *)
Lemma visit_without_entry env websocket w :
  subscriptions (manager w) !! websocket = None → visit env websocket w = Ok w.
Proof. intros Hnone. unfold visit, topics_of. by rewrite Hnone. Qed.

(** The first send that raises ends the broadcast with [TypeError]: the
    connection is taken out of the manager, the connections before it
    have been served, those after it are not visited. *)
Lemma first_failure_aborts_tick env w before websocket after e :
  active_connections (manager w) = (before ++ websocket :: after)%list →
  (∀ other, other ∈ before → send_json_error env other = None) →
  send_json_error env websocket = Some e →
  has_data (data_store w) (topics_of websocket (manager w)) →
  ∃ w' frames,
    broadcast_data env w = Some (Raise TypeError w')
    ∧ manager w' = disconnect websocket (manager w)
    ∧ delivered_since w w' frames
    ∧ frames.*1
      = filter (λ other, has_data (data_store w) (topics_of other (manager w)))
               before.
Proof.
  intros Hactive Hbefore Hdown Hdata.
  rewrite broadcast_data_visit_all, Hactive, visit_all_app.
  destruct (visit_all_delivers env before w Hbefore)
    as (w1 & frames & -> & Hm & Hs & Hout & Hto & _).
  cbn.
  destruct (visit_cases env websocket w1)
    as [[Hno _]|(_ & d & n & _ & ->)].
  { by rewrite Hm, Hs in Hno. }
  rewrite Hdown. eexists _, frames. split; [done|].
  split_and!; cbn; [by rewrite Hm|done|done].
Qed.


(** C10. A connection that is in the live list and has no subscription
    entry is passed over: its visit leaves everything as it is and raises
    nothing, and the broadcast, which always comes to an end, is the one
    of the live list without it. *)
Theorem broadcast_passes_over_missing_entry env w websocket before after :
  subscriptions (manager w) !! websocket = None →
  active_connections (manager w) = (before ++ websocket :: after)%list →
  visit env websocket w = Ok w
  ∧ broadcast_data env w = Some (visit_all env (before ++ after) w).
Proof.
  intros Hnone Hactive. split; [by apply visit_without_entry|].
  rewrite broadcast_data_visit_all, Hactive, !visit_all_app.
  destruct (visit_all env before w) as [w1|e w1] eqn:Hbefore; [|done].
  destruct (visit_all_Ok _ _ _ _ Hbefore) as [Hm _].
  cbn. rewrite visit_without_entry; [done|]. by rewrite Hm.
Qed.

(** C7. [get_data] looks up the key [data_type:param]. When the store has
    a value for it, the body is that value with a reading of the clock;
    when it has none, the body is the error [Data not found]. A key that
    no write has named since the store was empty has no value. *)
Theorem get_data_found_or_not env w (data_type param : string) :
  let key := data_type +:+ ":" +:+ param in
  (∀ v, data_store w !! key = Some v →
        (get_data env data_type param w).1
        = DataBody {| value := v; timestamp := time_time env (time_reads w) |})
  ∧ (data_store w !! key = None →
     get_data env data_type param w = (ErrorBody "Data not found", w))
  ∧ (∀ writes,
       data_store w = ∅ → key ∉ writes.*1 →
       (get_data env data_type param (store_writes writes w)).1
       = ErrorBody "Data not found").
Proof.
  cbn. split_and!.
  - intros v Hv. unfold get_data. by rewrite Hv.
  - intros Hnone. unfold get_data. by rewrite Hnone.
  - intros writes Hempty Hkey.
    assert (∀ w0, data_store w0 !! (data_type +:+ ":" +:+ param) = None →
                  data_store (store_writes writes w0)
                  !! (data_type +:+ ":" +:+ param) = None) as Hwrites.
    { induction writes as [|[k v] writes IH]; intros w0 Hw0; [done|].
      cbn. fold (store_writes writes (store_set k v w0)).
      apply IH.
      - intros Hin. apply Hkey. cbn. by right.
      - cbn. rewrite lookup_insert_ne; [done|].
        intros ->. apply Hkey. cbn. by left. }
    unfold get_data. rewrite Hwrites; [done|].
    by rewrite Hempty, lookup_empty.
Qed.
End Broadcast.

(** ** Properties of the websocket route *)

Section Route.
Context {Value Time : Type} `{SetOrder}.
Implicit Types (w : World Value Time) (env : Env Time).


(** A decoded frame that is not an object leaves the route with
    [AttributeError]: no reply, no [disconnect]. *)
Lemma non_object_escapes env (websocket : WebSocket) w loads events :
  is_Some loads → ¬ is_object loads →
  receive_loop env websocket (Received loads :: events) w = Escaped AttributeError w.
Proof.
  intros [v ->] Hobject.
  destruct v; try done. exfalso. apply Hobject. by eexists.
Qed.
End Route.

(** ** The properties at the sample worlds *)


(** The scenario of the specification: the subscriber of STOCK:AAPL and
    SENSOR:1 gets STOCK:AAPL alone while the store has no SENSOR:1. *)
Example scenario_payload :
  broadcast_data every_send_goes_through (world_of scenario_subscriber aapl_only)
  = Some (Ok {| manager := scenario_subscriber;
                data_store := aapl_only;
                time_reads := 1;
                outbox :=
                  [(1, Push {[ "STOCK:AAPL" :=
                                 {| value := 101.23%Q; timestamp := 0 |} ]})] |}).
Proof. vm_compute. reflexivity. Qed.

Lemma broadcast_passes_over_missing_entry_witness :
  let w := world_of entry_missing aapl_only in
  subscriptions (manager w) !! 7 = None
  ∧ active_connections (manager w) = ([] ++ 7 :: [])%list
  ∧ broadcast_data every_send_goes_through w = Some (Ok w).
Proof.
  cbn zeta. split; [reflexivity|]. split; [reflexivity|].
  exact (proj2 (broadcast_passes_over_missing_entry every_send_goes_through
                  (world_of entry_missing aapl_only) 7 [] []
                  eq_refl eq_refl)).
Defined.

Lemma get_data_found_or_not_witness :
  let before := world_of new_manager ∅ in
  let after := store_set "STOCK:AAPL" 101.23%Q before in
  data_store after !! "STOCK:AAPL" = Some 101.23%Q
  ∧ (get_data every_send_goes_through "STOCK" "AAPL" after).1
    = DataBody {| value := 101.23%Q; timestamp := 0 |}
  ∧ data_store before !! "STOCK:AAPL" = None
  ∧ get_data every_send_goes_through "STOCK" "AAPL" before
    = (ErrorBody "Data not found", before).
Proof.
  cbn zeta.
  destruct (get_data_found_or_not every_send_goes_through
              (store_set "STOCK:AAPL" 101.23%Q (world_of new_manager ∅))
              "STOCK" "AAPL") as (Hfound & _ & _).
  destruct (get_data_found_or_not every_send_goes_through
              (world_of new_manager ∅) "STOCK" "AAPL") as (_ & Hmissing & _).
  split; [reflexivity|]. split; [exact (Hfound _ eq_refl)|].
  split; [reflexivity|]. exact (Hmissing eq_refl).
Defined.



(** C1 at a failing input. Connection 1 and 2 subscribe to STOCK:AAPL and
    the transport of 1 is down. The first send raises; the handler removes
    the connection and then awaits [None]: [TypeError] leaves
    [broadcast_data], and with it [generate_data], whose second round does
    not take place. *)
Theorem send_failure_ends_generate_data :
  let w := world_of two_subscribers aapl_only in
  let draw := λ _ : string, 101.23%Q in
  let torn_down :=
    {| manager := disconnect 1 two_subscribers;
       data_store := data_store (produce draw w);
       time_reads := 1;
       outbox := [] |} in
  broadcast_data first_is_down (produce draw w) = Some (Raise TypeError torn_down)
  ∧ generate_data first_is_down [draw; draw] w = Some (Raise TypeError torn_down).
Proof. vm_compute. split; reflexivity. Qed.

(** C2 at a failing input. In the same tick connection 2 is live, its
    transport is up and its topic has a value: visited, it is served. The
    tick ends at connection 1, before it: connection 2 gets nothing.
    Connection 1 is out of the live list afterwards. *)
Theorem teardown_starves_sibling :
  let w := world_of two_subscribers aapl_only in
  ∃ w',
    broadcast_data first_is_down w = Some (Raise TypeError w')
    ∧ active_connections (manager w) = [1; 2]
    ∧ active_connections (manager w') = [2]
    ∧ (∃ d, visit first_is_down 2 w = Ok (deliver 2 (Push d) (set_time_reads 1 w)))
    ∧ outbox w' = [].
Proof.
  cbn zeta. eexists. split; [vm_compute; reflexivity|].
  split; [reflexivity|]. split; [reflexivity|]. split; [|reflexivity].
  eexists. vm_compute. reflexivity.
Qed.


(** ** Further properties of the registry *)

Section RegistryMore.
Context `{SetOrder}.
Implicit Types (self : ConnectionManager) (websocket other : WebSocket).

Lemma list_remove_first_absent {A : Type} `{EqDecision A} (x : A) (l : list A) :
  x ∉ l → list_remove_first x l = l.
Proof.
  induction l as [|y l IH]; cbn; [done|].
  intros Hnin. rewrite decide_False by (intros ->; apply Hnin; left).
  f_equal. apply IH. intros ?. apply Hnin. by right.
Qed.

Lemma list_remove_first_snoc {A : Type} `{EqDecision A} (x : A) (l : list A) :
  x ∉ l → list_remove_first x (l ++ [x]) = l.
Proof.
  induction l as [|y l IH]; cbn.
  - intros _. by rewrite decide_True.
  - intros Hnin. rewrite decide_False by (intros ->; apply Hnin; left).
    f_equal. apply IH. intros ?. apply Hnin. by right.
Qed.

Lemma length_filter_list_remove_first_ne {A : Type} `{EqDecision A} (x y : A)
    (l : list A) :
  y ≠ x →
  length (filter (λ z, z = y) (list_remove_first x l))
  = length (filter (λ z, z = y) l).
Proof.
  intros Hne. induction l as [|z l IH]; [done|].
  cbn [list_remove_first]. destruct (decide (x = z)) as [<-|Hxz].
  - by rewrite filter_cons_False by congruence.
  - rewrite !filter_cons. destruct (decide (z = y)); cbn; by rewrite IH.
Qed.

Lemma length_filter_absent {A : Type} `{EqDecision A} (x : A) (l : list A) :
  x ∉ l → length (filter (λ y, y = x) l) = 0.
Proof.
  induction l as [|z l IH]; [done|].
  intros Hnin. rewrite filter_cons_False by (intros ->; apply Hnin; left).
  apply IH. intros ?. apply Hnin. by right.
Qed.

(** With no duplicate in the list, removing [x] leaves the elements other
    than [x]. *)
Lemma elem_of_list_remove_first_NoDup {A : Type} `{EqDecision A} (x y : A)
    (l : list A) :
  NoDup l → y ∈ list_remove_first x l ↔ y ∈ l ∧ y ≠ x.
Proof.
  intros Hnodup. split.
  - intros Hin. split; [by apply (elem_of_list_remove_first x)|].
    intros ->. by apply (not_elem_of_list_remove_first x l).
  - intros [Hin Hne]. by apply elem_of_list_remove_first_ne.
Qed.

Lemma disconnect_absent websocket self :
  websocket ∉ active_connections self →
  subscriptions self !! websocket = None →
  disconnect websocket self = self.
Proof.
  intros Hlive Hentry. destruct self as [live subs]. unfold disconnect. cbn in *.
  rewrite decide_False by done.
  rewrite decide_False; [done|]. rewrite Hentry. by intros [? ?].
Qed.

(** The loop of [unsubscribe] on a list without duplicates: the topics
    named go, the others stay, in their order. *)
Lemma foldl_discard_topic (topics : list string) :
  ∀ current,
    NoDup current →
    NoDup (foldl discard_topic current topics)
    ∧ ∀ topic,
        topic ∈ foldl discard_topic current topics
        ↔ topic ∈ current ∧ topic ∉ topics.
Proof.
  induction topics as [|topic0 topics IH]; intros current Hnodup; cbn.
  { split; [done|]. intros topic. split; [|by intros [? _]].
    intros ?. split; [done|]. by intros ?%elem_of_nil. }
  assert (NoDup (discard_topic current topic0)) as Hnodup'.
  { unfold discard_topic. destruct (decide (topic0 ∈ current)); [|done].
    by apply NoDup_list_remove_first. }
  assert (∀ topic, topic ∈ discard_topic current topic0
                   ↔ topic ∈ current ∧ topic ≠ topic0) as Hdiscard.
  { intros topic. unfold discard_topic.
    destruct (decide (topic0 ∈ current)) as [Hin|Hnin].
    - by apply elem_of_list_remove_first_NoDup.
    - split; [|by intros [? _]].
      intros Htopic. split; [done|]. by intros ->. }
  destruct (IH _ Hnodup') as [Hnd Helem]. split; [done|].
  intros topic. rewrite Helem, Hdiscard, elem_of_cons. tauto.
Qed.

(** X1. Connecting a connection that is neither live nor registered and
    then disconnecting it gives the manager back as it was: the live list
    in its order, every subscription. *)
Theorem connect_then_disconnect websocket self :
  websocket ∉ active_connections self →
  subscriptions self !! websocket = None →
  disconnect websocket (state_of (connect websocket None self)) = self.
Proof.
  intros Hlive Hentry. destruct self as [live subs]. cbn in *.
  unfold disconnect. cbn.
  rewrite decide_True by (apply elem_of_app; right; apply list_elem_of_here).
  rewrite decide_True by (rewrite lookup_insert_eq; eauto).
  rewrite list_remove_first_snoc by done.
  by rewrite delete_insert_eq, delete_id.
Qed.

(** X2. When no connection has two live entries, a second [disconnect] of
    the same connection changes nothing. *)
Theorem disconnect_twice websocket self :
  NoDup (active_connections self) →
  disconnect websocket (disconnect websocket self) = disconnect websocket self.
Proof.
  intros Hnodup. apply disconnect_absent.
  - unfold disconnect. cbn.
    destruct (decide (websocket ∈ active_connections self)); [|done].
    by apply not_elem_of_list_remove_first.
  - unfold disconnect. cbn.
    destruct (decide (is_Some (subscriptions self !! websocket))) as [|Hno].
    + apply lookup_delete_eq.
    + by apply eq_None_not_Some.
Qed.

(** X3. [disconnect] takes one live entry of the connection away, if it
    has any, and deletes its subscription entry; the other connections keep
    their live entries and their subscriptions. *)
Theorem disconnect_removes_one websocket self :
  subscriptions (disconnect websocket self) !! websocket = None
  ∧ entries websocket (disconnect websocket self) = pred (entries websocket self)
  ∧ ∀ other, other ≠ websocket →
      entries other (disconnect websocket self) = entries other self
      ∧ subscriptions (disconnect websocket self) !! other
        = subscriptions self !! other.
Proof.
  split_and!.
  - unfold disconnect. cbn.
    destruct (decide (is_Some (subscriptions self !! websocket))) as [|Hno].
    + apply lookup_delete_eq.
    + by apply eq_None_not_Some.
  - unfold entries, disconnect. cbn.
    destruct (decide (websocket ∈ active_connections self)) as [Hin|Hnin].
    + by rewrite <- (length_filter_list_remove_first websocket _ Hin).
    + by rewrite length_filter_absent.
  - intros other Hne. split.
    + unfold entries, disconnect. cbn.
      destruct (decide (websocket ∈ active_connections self)); [|done].
      by apply length_filter_list_remove_first_ne.
    + unfold disconnect. cbn.
      destruct (decide (is_Some (subscriptions self !! websocket))); [|done].
      by rewrite lookup_delete_ne.
Qed.

(** X4. [subscribe] and [unsubscribe] leave the live list and the set of
    registered connections as they are (on a connection that is not
    registered they do nothing at all), and they leave the subscriptions of
    every other connection alone. *)
Theorem subscriptions_change_one_entry websocket (topics : list string)
    (removed : option (list string)) self :
  let s := subscribe websocket topics self in
  let u := unsubscribe websocket removed self in
  active_connections s = active_connections self
  ∧ active_connections u = active_connections self
  ∧ dom (subscriptions s) = dom (subscriptions self)
  ∧ dom (subscriptions u) = dom (subscriptions self)
  ∧ (subscriptions self !! websocket = None → s = self ∧ u = self)
  ∧ ∀ other, other ≠ websocket →
      subscriptions s !! other = subscriptions self !! other
      ∧ subscriptions u !! other = subscriptions self !! other.
Proof.
  cbn. split_and!.
  - apply subscribe_active.
  - apply unsubscribe_active.
  - apply set_eq. intros other. rewrite !elem_of_dom. apply subscribe_entry.
  - apply set_eq. intros other. rewrite !elem_of_dom. apply unsubscribe_entry.
  - intros Hnone. unfold subscribe, unsubscribe. by rewrite Hnone.
  - intros other Hne. unfold subscribe, unsubscribe.
    destruct (subscriptions self !! websocket); [|done]. cbn.
    by rewrite !lookup_insert_ne.
Qed.

(** X5. On a subscription list that holds no topic twice, [unsubscribe]
    with a list of topics is set difference: the topics named go, all
    others stay, and the list still holds no topic twice. *)
Theorem unsubscribe_is_set_difference websocket (topics current : list string) self :
  subscriptions self !! websocket = Some current →
  NoDup current →
  subscribed websocket (unsubscribe websocket (Some topics) self)
  = subscribed websocket self ∖ list_to_set topics
  ∧ NoDup (topics_of websocket (unsubscribe websocket (Some topics) self)).
Proof.
  intros Hcurrent Hnodup.
  destruct (foldl_discard_topic topics current Hnodup) as [Hnd Helem].
  unfold subscribed, topics_of, unsubscribe. rewrite Hcurrent. cbn.
  rewrite lookup_insert_eq. cbn. split; [|done].
  apply set_eq. intros topic.
  rewrite elem_of_difference, !elem_of_list_to_set. apply Helem.
Qed.

Lemma apply_op_lists_without_duplicates self op :
  lists_without_duplicates self → lists_without_duplicates (apply_op self op).
Proof.
  intros Hinv ws current.
  destruct op as [ws' [e|]|ws'|ws' topics|ws' topics]; cbn.
  - apply Hinv.
  - rewrite lookup_insert. destruct (decide (ws' = ws)).
    + intros [= <-]. constructor.
    + apply Hinv.
  - unfold disconnect. cbn.
    destruct (decide (is_Some (subscriptions self !! ws'))); [|apply Hinv].
    rewrite lookup_delete. destruct (decide (ws' = ws)); [done|apply Hinv].
  - unfold subscribe. destruct (subscriptions self !! ws') as [old|] eqn:Hold;
      [|apply Hinv]. cbn.
    rewrite lookup_insert. destruct (decide (ws' = ws)); [|apply Hinv].
    intros [= <-]. apply list_of_set_NoDup.
  - unfold unsubscribe. destruct (subscriptions self !! ws') as [old|] eqn:Hold;
      [|apply Hinv]. cbn.
    rewrite lookup_insert. destruct (decide (ws' = ws)); [|apply Hinv].
    intros [= <-]. destruct topics as [topics|]; [|constructor].
    apply foldl_discard_topic. by apply (Hinv ws').
Qed.

(** X6. After every sequence of [connect], [disconnect], [subscribe] and
    [unsubscribe] on a new manager, no subscription list holds a topic
    twice, whatever order [list(set(...))] produces. *)
Theorem subscription_lists_hold_no_duplicate (ops : list registry_op) websocket :
  NoDup (topics_of websocket (run_ops ops new_manager)).
Proof.
  assert (∀ self, lists_without_duplicates self →
                  lists_without_duplicates (run_ops ops self)) as Hrun.
  { induction ops as [|op ops IH]; intros self Hinv; [done|].
    apply IH. by apply apply_op_lists_without_duplicates. }
  unfold topics_of.
  destruct (subscriptions (run_ops ops new_manager) !! websocket) as [current|]
    eqn:Hcurrent; cbn; [|constructor].
  apply (Hrun new_manager) in Hcurrent; [done|].
  intros ws current'. cbn. by rewrite lookup_empty.
Qed.

(** X7. For a registered connection, subscribing to a list of topics and
    then unsubscribing from the same list leaves the topics it had before
    that are not in the list. *)
Theorem subscribe_then_unsubscribe websocket (topics : list string) self :
  is_Some (subscriptions self !! websocket) →
  subscribed websocket
    (unsubscribe websocket (Some topics) (subscribe websocket topics self))
  = subscribed websocket self ∖ list_to_set topics.
Proof.
  intros [current Hcurrent].
  destruct (foldl_discard_topic topics (list_of_set (current ++ topics))
              (list_of_set_NoDup _)) as [_ Helem].
  unfold subscribed, topics_of, unsubscribe, subscribe. rewrite Hcurrent. cbn.
  rewrite lookup_insert_eq. cbn. rewrite lookup_insert_eq. cbn.
  apply set_eq. intros topic.
  rewrite elem_of_difference, !elem_of_list_to_set, Helem.
  rewrite elem_of_list_of_set, elem_of_app. tauto.
Qed.
End RegistryMore.


(** ** Further properties of the broadcast and of the producer *)

Section BroadcastMore.
Context {Value Time : Type}.
Implicit Types (w : World Value Time) (env : Env Time).
Implicit Types (store : gmap string Value) (d : gmap string (Reading Value Time)).

(** Closes the routine parts of a statement about a world that did not
    change. *)
Local Ltac unchanged :=
  first [ done
        | by constructor
        | lia
        | by intros ? [= <-]
        | by intros ? ? [=]
        | by intros ? ? [= <- _] ].

(** The clock in the inner loop: one reading for each topic of the list
    that has a value, and every new timestamp is one of these readings. *)
Lemma foldl_add_topic_clock env store topics :
  ∀ d0 n0,
    let built := foldl (add_topic env store) (d0, n0) topics in
    built.2 = (n0 + length (filter (λ topic, is_Some (store !! topic)) topics))%nat
    ∧ ∀ topic reading,
        built.1 !! topic = Some reading →
        d0 !! topic = Some reading
        ∨ ∃ k, (n0 ≤ k < built.2)%nat ∧ timestamp reading = time_time env k.
Proof.
  induction topics as [|topic0 topics IH]; intros d0 n0.
  { cbn. split; [lia|]. intros topic reading ?. by left. }
  cbn [foldl]. rewrite filter_cons.
  destruct (store !! topic0) as [v0|] eqn:Hv0.
  - assert (add_topic env store (d0, n0) topic0
            = (<[topic0 := {| value := v0; timestamp := time_time env n0 |}]> d0,
               S n0)) as ->.
    { unfold add_topic. by rewrite Hv0. }
    destruct (IH (<[topic0 := {| value := v0; timestamp := time_time env n0 |}]> d0)
                (S n0)) as [Hcount Hstamp].
    cbn zeta in *. rewrite decide_True by eauto. cbn [length].
    split; [lia|].
    intros topic reading Hreading.
    destruct (Hstamp topic reading Hreading) as [Hold|(k & Hk & Htime)].
    + destruct (decide (topic0 = topic)) as [->|Hne].
      * rewrite lookup_insert_eq in Hold. injection Hold as <-.
        right. exists n0. split; [lia|done].
      * rewrite lookup_insert_ne in Hold by done. by left.
    + right. exists k. split; [lia|done].
  - assert (add_topic env store (d0, n0) topic0 = (d0, n0)) as ->.
    { unfold add_topic. by rewrite Hv0. }
    rewrite decide_False by (by intros [? ?]).
    apply IH.
Qed.

Lemma snapshot_of_nonempty store topics d :
  snapshot_of store topics d → has_data store topics → d ≠ ∅.
Proof.
  intros Hsnapshot (topic & Hin & [v Hv])%Exists_exists Hempty.
  specialize (Hsnapshot topic).
  rewrite Hempty, lookup_empty, decide_True, Hv in Hsnapshot by done.
  done.
Qed.

(** What one visit of the loop does to the world. *)
Lemma visit_effect env (websocket : WebSocket) w :
  ∃ frames,
    data_store (state_of (visit env websocket w)) = data_store w
    ∧ delivered_since w (state_of (visit env websocket w)) frames
    ∧ snapshots w frames
    ∧ pushes_data frames
    ∧ Forall (λ sent, sent.1 = websocket) frames
    ∧ time_reads (state_of (visit env websocket w))
      = (time_reads w + length (topics_with_data w websocket))%nat
    ∧ stamped_between env (time_reads w)
        (time_reads (state_of (visit env websocket w))) frames
    ∧ (∀ w', visit env websocket w = Ok w' → manager w' = manager w)
    ∧ (∀ e w', visit env websocket w = Raise e w' → e = TypeError).
Proof.
  unfold visit, topics_with_data.
  destruct (topics_of websocket (manager w)) as [|topic topics] eqn:Htopics.
  { exists []. cbn. unfold delivered_since. rewrite app_nil_r.
    split_and!; unchanged. }
  set (subscribed_topics := topic :: topics).
  pose proof (build_data_snapshot env subscribed_topics w) as Hsnapshot.
  destruct (foldl_add_topic_clock env (data_store w) subscribed_topics ∅
              (time_reads w)) as [Hcount Hstamp].
  fold (build_data env subscribed_topics w) in Hcount, Hstamp. cbn zeta in *.
  destruct (decide ((build_data env subscribed_topics w).1 = ∅)) as [Hempty|Hdata].
  { exists []. cbn. unfold delivered_since. rewrite app_nil_r.
    split_and!; try unchanged. }
  unfold send_json.
  assert (∀ topic0 reading,
            (build_data env subscribed_topics w).1 !! topic0 = Some reading →
            ∃ k, (time_reads w ≤ k < (build_data env subscribed_topics w).2)%nat
                 ∧ timestamp reading = time_time env k) as Hstamp'.
  { intros topic0 reading Hreading.
    destruct (Hstamp topic0 reading Hreading) as [Hold|?]; [|done].
    by rewrite lookup_empty in Hold. }
  destruct (send_json_error env websocket) as [e|].
  - exists []. cbn. unfold delivered_since. rewrite app_nil_r.
    split_and!; unchanged.
  - exists [(websocket, Push (build_data env subscribed_topics w).1)]. cbn.
    split_and!; try done.
    + constructor; [|constructor]. eexists. split; [done|]. cbn.
      by rewrite Htopics.
    + constructor; [|constructor]. by eexists.
    + by constructor.
    + constructor; [|constructor]. cbn. intros d topic0 reading [= <-].
      apply Hstamp'.
    + by intros w' [= <-].
Qed.

Lemma stamped_between_mono env (lo lo' hi hi' : nat)
    (frames : list (WebSocket * frame Value Time)) :
  (lo' ≤ lo)%nat → (hi ≤ hi')%nat →
  stamped_between env lo hi frames → stamped_between env lo' hi' frames.
Proof.
  intros Hlo Hhi Hframes. unfold stamped_between in *.
  eapply Forall_impl; [exact Hframes|]. cbn.
  intros sent Hsent d topic reading Hd Hreading.
  destruct (Hsent d topic reading Hd Hreading) as (k & Hk & Htime).
  exists k. split; [lia|done].
Qed.

(** What the iteration does to the world, whether it returns or raises. *)
Lemma visit_all_effect env (l : list WebSocket) :
  ∀ w,
    ∃ frames,
      data_store (state_of (visit_all env l w)) = data_store w
      ∧ delivered_since w (state_of (visit_all env l w)) frames
      ∧ snapshots w frames
      ∧ pushes_data frames
      ∧ Forall (λ sent, sent.1 ∈ l) frames
      ∧ (time_reads w ≤ time_reads (state_of (visit_all env l w)))%nat
      ∧ stamped_between env (time_reads w)
          (time_reads (state_of (visit_all env l w))) frames
      ∧ (∀ e w', visit_all env l w = Raise e w' → e = TypeError).
Proof.
  induction l as [|websocket l IH]; intros w.
  { exists []. cbn. unfold delivered_since. rewrite app_nil_r.
    split_and!; try done; by constructor. }
  destruct (visit_effect env websocket w)
    as (frames1 & Hs1 & Hout1 & Hsnap1 & Hpush1 & Hto1 & Hclock1 & Hstamp1
        & Hok1 & Hraise1).
  cbn [visit_all].
  destruct (visit env websocket w) as [w1|e w1] eqn:Hvisit; cbn [state_of] in *.
  - destruct (IH w1)
      as (frames2 & Hs2 & Hout2 & Hsnap2 & Hpush2 & Hto2 & Hclock2 & Hstamp2
          & Hraise2).
    exists (frames1 ++ frames2)%list.
    split_and!.
    + by rewrite Hs2.
    + unfold delivered_since in *. by rewrite Hout2, Hout1, app_assoc.
    + apply Forall_app. split; [done|].
      unfold snapshots in *. by rewrite (Hok1 w1 eq_refl), Hs1 in Hsnap2.
    + by apply Forall_app.
    + apply Forall_app. split.
      * eapply Forall_impl; [exact Hto1|]. intros sent ->. left.
      * eapply Forall_impl; [exact Hto2|]. intros sent ?. by right.
    + lia.
    + apply Forall_app. split.
      * eapply stamped_between_mono; [| |exact Hstamp1]; lia.
      * eapply stamped_between_mono; [| |exact Hstamp2]; lia.
    + done.
  - exists frames1.
    split_and!;
      first [ done
            | lia
            | eapply Forall_impl; [exact Hto1|]; intros sent ->; left
            | intros e' w' [= <- _]; by eapply Hraise1 ].
Qed.

Lemma visit_all_returns_iff env (l : list WebSocket) :
  ∀ w,
    (∃ w', visit_all env l w = Ok w')
    ↔ ∀ websocket,
        websocket ∈ l →
        has_data (data_store w) (topics_of websocket (manager w)) →
        send_json_error env websocket = None.
Proof.
  induction l as [|websocket l IH]; intros w.
  { cbn. split; [by intros _ ? ?%elem_of_nil|by eexists]. }
  cbn [visit_all].
  destruct (visit_cases env websocket w)
    as [[Hno ->]|(Hdata & d & n & _ & ->)].
  - rewrite IH. split.
    + intros Hrest other [->|Hin]%elem_of_cons; [done|by apply Hrest].
    + intros Hall other Hin. apply Hall. by right.
  - destruct (send_json_error env websocket) as [e|] eqn:Hsend.
    + split; [by intros [? ?]|].
      intros Hall. specialize (Hall websocket (list_elem_of_here _ _) Hdata).
      by rewrite Hsend in Hall.
    + rewrite IH. cbn. split.
      * intros Hrest other [->|Hin]%elem_of_cons; [done|by apply Hrest].
      * intros Hall other Hin. apply Hall. by right.
Qed.

(** X8. [broadcast_data] always comes to an end. It returns exactly when
    every live connection whose topics have data can be sent to; the only
    exception that leaves it otherwise is [TypeError]. *)
Theorem broadcast_returns_iff env w :
  (∃ outcome, broadcast_data env w = Some outcome)
  ∧ ((∃ w', broadcast_data env w = Some (Ok w'))
     ↔ ∀ websocket,
         websocket ∈ active_connections (manager w) →
         has_data (data_store w) (topics_of websocket (manager w)) →
         send_json_error env websocket = None)
  ∧ ∀ e w', broadcast_data env w = Some (Raise e w') → e = TypeError.
Proof.
  rewrite broadcast_data_visit_all. split_and!.
  - by eexists.
  - rewrite <- visit_all_returns_iff. split.
    + intros [w' [= Hrun]]. by exists w'.
    + intros [w' ->]. by exists w'.
  - intros e w' [= Hrun].
    destruct (visit_all_effect env (active_connections (manager w)) w)
      as (frames & _ & _ & _ & _ & _ & _ & _ & Hraise).
    by eapply Hraise.
Qed.

(** X10. Whether it returns or raises, [broadcast_data] leaves the store as
    it is and only adds frames to those sent: each is a broadcast to a
    connection of the live list, never empty, holding the subscribed topics
    of that connection that have a value, with the value stored. *)
Theorem broadcast_only_pushes_snapshots env w outcome :
  broadcast_data env w = Some outcome →
  ∃ frames,
    data_store (state_of outcome) = data_store w
    ∧ delivered_since w (state_of outcome) frames
    ∧ snapshots w frames
    ∧ pushes_data frames
    ∧ Forall (λ sent, sent.1 ∈ active_connections (manager w)) frames.
Proof.
  rewrite broadcast_data_visit_all. intros [= <-].
  destruct (visit_all_effect env (active_connections (manager w)) w)
    as (frames & ? & ? & ? & ? & ? & _).
  by exists frames.
Qed.

(** X11. The clock is read once for each subscribed topic that has a value,
    when the connection is visited: the timestamps of the frames of a tick
    are readings taken during that tick, after those taken before it. *)
Theorem broadcast_stamps_with_own_readings env w outcome :
  broadcast_data env w = Some outcome →
  (∀ websocket,
     time_reads (state_of (visit env websocket w))
     = (time_reads w + length (topics_with_data w websocket))%nat)
  ∧ ∃ frames,
      delivered_since w (state_of outcome) frames
      ∧ (time_reads w ≤ time_reads (state_of outcome))%nat
      ∧ stamped_between env (time_reads w) (time_reads (state_of outcome)) frames.
Proof.
  rewrite broadcast_data_visit_all. intros [= <-]. split.
  - intros websocket.
    by destruct (visit_effect env websocket w) as (? & _ & _ & _ & _ & _ & ? & _).
  - destruct (visit_all_effect env (active_connections (manager w)) w)
      as (frames & _ & ? & _ & _ & _ & ? & ? & _).
    by exists frames.
Qed.

(** The writes of one round, key by key. *)
Lemma foldl_store_set (draw : string → Value) (keys : list string) (key : string) :
  ∀ w,
    let w' := foldl (λ w key, store_set key (draw key) w) w keys in
    data_store w' !! key
    = (if decide (key ∈ keys) then Some (draw key) else data_store w !! key)
    ∧ manager w' = manager w
    ∧ time_reads w' = time_reads w
    ∧ outbox w' = outbox w.
Proof.
  induction keys as [|key0 keys IH]; intros w; [done|].
  cbn [foldl]. destruct (IH (store_set key0 (draw key0) w)) as (Hstore & Hrest).
  cbn zeta in *. split; [|done]. rewrite Hstore. cbn.
  destruct (decide (key ∈ keys)) as [Hin|Hnin].
  - rewrite decide_True; [done|by right].
  - destruct (decide (key0 = key)) as [->|Hne].
    + rewrite lookup_insert_eq. by rewrite decide_True by left.
    + rewrite lookup_insert_ne by done.
      rewrite decide_False; [done|].
      intros [?|?]%elem_of_cons; congruence.
Qed.

(** X12. After the writes of a round, each of the eight keys of the
    producer holds the value drawn for it in that round and every other key
    is as before; the query route returns that value for [STOCK/MSFT] and
    the other keys produced. The manager is not touched. *)
Theorem produce_writes_draws env (draw : string → Value) w (data_type param : string) :
  let key := data_type +:+ ":" +:+ param in
  (key ∈ produced_keys →
   (get_data env data_type param (produce draw w)).1
   = DataBody {| value := draw key; timestamp := time_time env (time_reads w) |})
  ∧ (key ∉ produced_keys →
     data_store (produce draw w) !! key = data_store w !! key)
  ∧ manager (produce draw w) = manager w.
Proof.
  cbn zeta.
  destruct (foldl_store_set draw produced_keys (data_type +:+ ":" +:+ param) w)
    as (Hstore & Hmanager & Hclock & _).
  cbn zeta in *. fold (produce draw w) in Hstore, Hmanager, Hclock.
  split_and!.
  - intros Hin. unfold get_data. rewrite Hstore, decide_True by done.
    by rewrite Hclock.
  - intros Hnin. by rewrite Hstore, decide_False.
  - done.
Qed.

Lemma generate_data_effect env (draws : list (string → Value)) (key : string) :
  ∀ w,
    ∃ outcome,
      generate_data env draws w = Some outcome
      ∧ (key ∉ produced_keys →
         data_store (state_of outcome) !! key = data_store w !! key)
      ∧ (∀ e w', outcome = Raise e w' →
                 e = TypeError
                 ∧ ∀ more, generate_data env (draws ++ more) w = Some (Raise e w')).
Proof.
  induction draws as [|draw draws IH]; intros w.
  { exists (Ok w). by split_and!. }
  cbn [generate_data app].
  pose proof (broadcast_data_visit_all env (produce draw w)) as Hrun.
  destruct (visit_all_effect env (active_connections (manager (produce draw w)))
              (produce draw w)) as (frames & Hstore & _ & _ & _ & _ & _ & _ & Hraise).
  set (outcome := visit_all env (active_connections (manager (produce draw w)))
                    (produce draw w)) in *.
  clearbody outcome.
  destruct (foldl_store_set draw produced_keys key w) as (Hwrites & _).
  cbn zeta in Hwrites. fold (produce draw w) in Hwrites.
  rewrite Hrun. destruct outcome as [w1|e w1]; cbn [state_of] in *.
  - destruct (IH w1) as (outcome & Hrest & Hkey & Hdead).
    exists outcome. split_and!; [done| |done].
    intros Hnin. rewrite (Hkey Hnin), Hstore, Hwrites. by rewrite decide_False.
  - exists (Raise e w1). split_and!; [done| |].
    + intros Hnin. cbn. rewrite Hstore, Hwrites. by rewrite decide_False.
    + intros e' w' [= <- <-]. split; [by eapply Hraise|done].
Qed.

(** X13. A key that is not one of the eight keys of the producer and has
    no value when [generate_data] starts has none after any number of
    rounds: the query route answers [Data not found] for it throughout. *)
Theorem unproduced_key_stays_missing env (draws : list (string → Value)) w outcome
    (data_type param : string) :
  generate_data env draws w = Some outcome →
  data_type +:+ ":" +:+ param ∉ produced_keys →
  data_store w !! (data_type +:+ ":" +:+ param) = None →
  get_data env data_type param (state_of outcome)
  = (ErrorBody "Data not found", state_of outcome).
Proof.
  intros Hrun Hkey Hmissing.
  destruct (generate_data_effect env draws (data_type +:+ ":" +:+ param) w)
    as (outcome' & Hrun' & Hstore & _).
  rewrite Hrun in Hrun'. injection Hrun' as <-.
  unfold get_data. by rewrite (Hstore Hkey), Hmissing.
Qed.

(** X14. [generate_data] has an outcome for every number of rounds, and an
    exception that leaves it in some round is final: it is [TypeError], and
    no later round takes place, whatever would have been drawn. *)
Theorem generate_data_ends_for_good env (draws more : list (string → Value)) w :
  (∃ outcome, generate_data env draws w = Some outcome)
  ∧ ∀ e w',
      generate_data env draws w = Some (Raise e w') →
      e = TypeError ∧ generate_data env (draws ++ more) w = Some (Raise e w').
Proof.
  destruct (generate_data_effect env draws "" w) as (outcome & Hrun & _ & Hdead).
  split; [by exists outcome|].
  intros e w' Hraise. rewrite Hrun in Hraise. injection Hraise as ->.
  destruct (Hdead e w' eq_refl) as [-> Hmore]. split; [done|apply Hmore].
Qed.

(** X15. As long as every live connection can be sent to, [generate_data]
    goes through all its rounds, and the manager is after them as it was
    before. *)
Theorem generate_data_survives_healthy_ticks env (draws : list (string → Value)) w :
  (∀ websocket,
     websocket ∈ active_connections (manager w) →
     send_json_error env websocket = None) →
  ∃ w', generate_data env draws w = Some (Ok w') ∧ manager w' = manager w.
Proof.
  revert w. induction draws as [|draw draws IH]; intros w Hsend.
  { by exists w. }
  cbn [generate_data].
  destruct (foldl_store_set draw produced_keys "" w) as (_ & Hmanager & _).
  cbn zeta in Hmanager. fold (produce draw w) in Hmanager.
  destruct (visit_all_delivers env (active_connections (manager (produce draw w)))
              (produce draw w)) as (w1 & frames & Hrun & Hm1 & _).
  { rewrite Hmanager. apply Hsend. }
  rewrite broadcast_data_visit_all, Hrun.
  destruct (IH w1) as (w' & Hrest & Hm').
  { rewrite Hm1, Hmanager. apply Hsend. }
  exists w'. split; [done|]. by rewrite Hm', Hm1.
Qed.
End BroadcastMore.


(** ** Further properties of the websocket route *)

Section RouteMore.
Context {Value Time : Type} `{SetOrder}.
Implicit Types (w : World Value Time) (env : Env Time).
Implicit Types (websocket other : WebSocket).

Lemma is_str_true (v : option JSON) (s : string) :
  is_str v s = true ↔ v = Some (JString s).
Proof.
  destruct v as [[]|]; cbn; try (split; [done|by intros [=]]).
  rewrite bool_decide_eq_true. split; [by intros ->|by intros [= ->]].
Qed.

Lemma is_str_false (v : option JSON) (s : string) :
  is_str v s = false ↔ v ≠ Some (JString s).
Proof.
  rewrite <- is_str_true. by destruct (is_str v s).
Qed.

Lemma mapM_as_str_strings (strs : list string) :
  mapM as_str (JString <$> strs) = Some strs.
Proof. apply mapM_Some. induction strs; by constructor. Qed.

Lemma subscribed_subscribe websocket (topics current : list string) self :
  subscriptions self !! websocket = Some current →
  subscribed websocket (subscribe websocket topics self)
  = list_to_set current ∪ list_to_set topics.
Proof.
  intros Hcurrent. unfold subscribed, topics_of, subscribe. rewrite Hcurrent. cbn.
  rewrite lookup_insert_eq. cbn. apply set_eq. intros topic.
  by rewrite elem_of_union, !elem_of_list_to_set, elem_of_list_of_set, elem_of_app.
Qed.

Lemma touches_only_refl websocket w : touches_only websocket w w.
Proof.
  split_and!; try done. exists []. split; [|by constructor].
  unfold delivered_since. by rewrite app_nil_r.
Qed.

Lemma touches_only_trans websocket w1 w2 w3 :
  touches_only websocket w1 w2 → touches_only websocket w2 w3 →
  touches_only websocket w1 w3.
Proof.
  intros (Hs1 & Ht1 & Ha1 & Hd1 & Ho1 & frames1 & Hout1 & Hto1)
         (Hs2 & Ht2 & Ha2 & Hd2 & Ho2 & frames2 & Hout2 & Hto2).
  split_and!; try congruence.
  - intros other Hne. by rewrite Ho2, Ho1.
  - exists (frames1 ++ frames2)%list. split; [|by apply Forall_app].
    unfold delivered_since in *. by rewrite Hout2, Hout1, app_assoc.
Qed.

Lemma send_json_touches_only env websocket (f : frame Value Time) w :
  touches_only websocket w (state_of (send_json env websocket f w)).
Proof.
  unfold send_json. destruct (send_json_error env websocket); cbn.
  - apply touches_only_refl.
  - split_and!; try done. exists [(websocket, f)]. split; [done|].
    by repeat constructor.
Qed.

Lemma set_manager_touches_only websocket w (self : ConnectionManager) :
  active_connections self = active_connections (manager w) →
  (∀ other, is_Some (subscriptions self !! other)
            ↔ is_Some (subscriptions (manager w) !! other)) →
  (∀ other, other ≠ websocket →
            subscriptions self !! other = subscriptions (manager w) !! other) →
  touches_only websocket w (set_manager self w).
Proof.
  intros Hactive Hdom Hother. split_and!; try done.
  - apply set_eq. intros other. rewrite !elem_of_dom. apply Hdom.
  - exists []. split; [|by constructor].
    unfold delivered_since. cbn. by rewrite app_nil_r.
Qed.

Lemma subscribe_touches_only websocket (topics : list string) w :
  touches_only websocket w (set_manager (subscribe websocket topics (manager w)) w).
Proof.
  apply set_manager_touches_only.
  - apply subscribe_active.
  - intros other. apply subscribe_entry.
  - intros other Hne. unfold subscribe.
    destruct (subscriptions (manager w) !! websocket); [|done]. cbn.
    by rewrite lookup_insert_ne.
Qed.

Lemma unsubscribe_touches_only websocket (topics : option (list string)) w :
  touches_only websocket w (set_manager (unsubscribe websocket topics (manager w)) w).
Proof.
  apply set_manager_touches_only.
  - apply unsubscribe_active.
  - intros other. apply unsubscribe_entry.
  - intros other Hne. unfold unsubscribe.
    destruct (subscriptions (manager w) !! websocket); [|done]. cbn.
    by rewrite lookup_insert_ne.
Qed.

Lemma subscribe_json_touches_only websocket (topics : JSON) w outcome :
  subscribe_json websocket topics w = Some outcome →
  touches_only websocket w (state_of outcome).
Proof.
  unfold subscribe_json.
  destruct (subscriptions (manager w) !! websocket).
  - destruct (py_iter topics) as [items|].
    + destruct (mapM as_str items); [|done].
      intros [= <-]. apply subscribe_touches_only.
    + intros [= <-]. apply touches_only_refl.
  - intros [= <-]. apply touches_only_refl.
Qed.

Lemma unsubscribe_json_touches_only websocket (topics : option JSON) w :
  touches_only websocket w (state_of (unsubscribe_json websocket topics w)).
Proof.
  unfold unsubscribe_json.
  destruct (subscriptions (manager w) !! websocket); [|apply touches_only_refl].
  destruct topics as [[]|]; cbn;
    first [ apply touches_only_refl | apply unsubscribe_touches_only | idtac ].
  all: match goal with
       | |- context [py_iter ?v] => destruct (py_iter v)
       end; cbn; first [ apply touches_only_refl | apply unsubscribe_touches_only ].
Qed.

(** X17. Whatever frame a client sends, handling it leaves the store, the
    clock, the live list and the set of registered connections as they
    are, changes no other connection's subscriptions, and sends nothing to
    anyone but that client. *)
Theorem frame_touches_only_sender env websocket (loads : option JSON) w outcome :
  on_frame env websocket loads w = Some outcome →
  touches_only websocket w (state_of outcome).
Proof.
  unfold on_frame. destruct loads as [[| | | | |members]|];
    try (intros [= <-]; first [ apply touches_only_refl
                              | apply send_json_touches_only ]).
  destruct (is_str (dict_get "command" members) "subscribe").
  - destruct (subscribe_json websocket
                (default (JArray []) (dict_get "topics" members)) w)
      as [[w1|e w1]|] eqn:Hsubscribe; [| |done].
    + intros [= <-]. eapply touches_only_trans.
      * apply (subscribe_json_touches_only _ _ _ _ Hsubscribe).
      * apply send_json_touches_only.
    + intros [= <-]. apply (subscribe_json_touches_only _ _ _ _ Hsubscribe).
  - destruct (is_str (dict_get "command" members) "unsubscribe").
    + pose proof (unsubscribe_json_touches_only websocket
                    (dict_get "topics" members) w) as Hunsubscribe.
      destruct (unsubscribe_json websocket (dict_get "topics" members) w)
        as [w1|e w1]; intros [= <-]; [|done].
      eapply touches_only_trans; [exact Hunsubscribe|].
      apply send_json_touches_only.
    + intros [= <-]. apply send_json_touches_only.
Qed.
End RouteMore.
